(** * linktimeplugin.hpp: link-time plug-in registration

    A shallow embedding of [src/linktimeplugin.hpp] (namespace
    [linktimeplugin] and the macro [REGISTER_PLUGIN]) together with the
    properties of its registry that the specification states.

    The header is stateful C++: a static [std::unique_ptr] per plug-in base
    class, constructors of static objects that write to it, exceptions, and
    a [noexcept] constructor with a function-try-block.  The embedding is a
    state-and-exception monad over an explicit program state. *)

From stdpp Require Import base strings list gmap.

Module linktimeplugin.

(** ** Data model *)

(** A plug-in class [PLUGIN].  [Base] is the member alias [PLUGIN::Base]
    (step 2 of the usage notes, inherited from the plug-in base class):
    [Registrar<PLUGIN>] derives from [RegistrarBase<typename PLUGIN::Base>]. *)
Record plugin_class := PluginClass {
  class_name : string;
  Base : string
}.

#[global] Instance plugin_class_eq_dec : EqDecision plugin_class.
Proof. solve_decision. Defined.

(** Lifetime of the member [PLUGIN plugin_] of a [Registrar<PLUGIN>]: the
    base-class constructor runs before the member is constructed. *)
Inductive lifetime : Set := not_yet_constructed | alive.

#[global] Instance lifetime_eq_dec : EqDecision lifetime.
Proof. solve_decision. Defined.

(** An object of class [Registrar<PLUGIN>]: its dynamic type and the
    member [plugin_]. *)
Record Registrar := MkRegistrar {
  PLUGIN : plugin_class;
  plugin_ : lifetime
}.

(** Objects are named by the address of the [Registrar] object; the member
    [plugin_] of the object at address [a] is a location of its own. *)
Inductive loc :=
  | registrar_obj (a : nat)
  | plugin_member (a : nat).

#[global] Instance loc_eq_dec : EqDecision loc.
Proof. solve_decision. Defined.

(** Pointers ([RegistrarBase<BASE>*], [BASE*]): null or the address of a
    location.  A C++ reference is a [loc]: it cannot be null. *)
Inductive ptr :=
  | nullptr
  | ptr_to (l : loc).

#[global] Instance ptr_eq_dec : EqDecision ptr.
Proof. solve_decision. Defined.

(** [&x] for a reference [x]. *)
Definition addressof (l : loc) : ptr := ptr_to l.

(** Program state.
    - [objects]: the [Registrar] objects created so far; the object at
      address [a] is [objects !! a], a new object gets the next address.
    - [registrars_]: the static data member
      [RegistrarBase<BASE>::registrars_], one [unique_ptr] per [BASE].
      [registrars_ !! BASE = None] is the null [unique_ptr] (its constant
      initial value), [Some v] owns the vector [v].
    - [heap]: what the allocator answers to the coming allocation requests
      ([false]: the request fails with [std::bad_alloc]); once the list is
      used up every request succeeds. *)
Record state := MkState {
  objects : list Registrar;
  registrars_ : gmap string (list ptr);
  heap : list bool
}.

Definition set_objects (f : list Registrar → list Registrar) (s : state) : state :=
  MkState (f (objects s)) (registrars_ s) (heap s).
Definition set_registrars_ (f : gmap string (list ptr) → gmap string (list ptr))
    (s : state) : state :=
  MkState (objects s) (f (registrars_ s)) (heap s).
Definition set_heap (h : list bool) (s : state) : state :=
  MkState (objects s) (registrars_ s) h.

(** The state before any dynamic initialization has run. *)
Definition initial (h : list bool) : state := MkState [] ∅ h.

(** ** Control flow: results, exceptions, [noexcept] *)

Inductive exception : Set := bad_alloc.

(** How a call ends: it returns, it leaves by an exception, the process is
    ended by [std::terminate], or the behaviour is undefined. *)
Inductive outcome (A : Type) :=
  | Normal (a : A) (s : state)
  | Throw (e : exception) (s : state)
  | Terminate
  | Undefined.
Arguments Normal {A} a s.
Arguments Throw {A} e s.
Arguments Terminate {A}.
Arguments Undefined {A}.

Definition M (A : Type) : Type := state → outcome A.

#[global] Instance M_ret : MRet M := λ A a s, Normal a s.
#[global] Instance M_bind : MBind M := λ A B f m s,
  match m s with
  | Normal a s' => f a s'
  | Throw e s' => Throw e s'
  | Terminate => Terminate
  | Undefined => Undefined
  end.

Definition get {A} (f : state → A) : M A := λ s, Normal (f s) s.
Definition modify (f : state → state) : M unit := λ s, Normal () (f s).
Definition undefined {A} : M A := λ _, Undefined.

(** A function-try-block on a CONSTRUCTOR: [C() try { body } catch(...) { handler }].
    The C++ standard, [except.handle]: "The currently handled exception is
    rethrown if control reaches the end of a handler of the
    function-try-block of a constructor or destructor."  So a handler that
    runs to its end, as the empty one of [RegistrarBase], does not end the
    exception: the constructor still leaves by it. *)
Definition ctor_function_try_block (body : M unit) (handler : M unit) : M unit :=
  λ s, match body s with
       | Throw e s' =>
           match handler s' with
           | Normal _ s'' => Throw e s''
           | other => other
           end
       | other => other
       end.

(** [noexcept]: an exception that leaves the function, its
    function-try-block included, calls [std::terminate] ([except.spec]). *)
Definition noexcept {A} (m : M A) : M A :=
  λ s, match m s with
       | Throw _ _ => Terminate
       | other => other
       end.

(** ** Allocation, [std::vector] *)

(** One allocation request ([operator new]). *)
Definition operator_new : M unit :=
  λ s, match heap s with
       | [] => Normal () s
       | true :: h => Normal () (set_heap h s)
       | false :: h => Throw bad_alloc (set_heap h s)
       end.

(** [new std::vector<...>]: allocates, then the default constructor gives
    the empty vector. *)
Definition new_vector : M (list ptr) := operator_new;; mret [].

(** [v.push_back(x)] on a local vector.  Whether a [push_back] has to
    allocate depends on the capacity, which the implementation chooses; the
    model asks the allocator at every [push_back] (a [push_back] on an empty
    vector has to).  On failure the vector is unchanged. *)
Definition push_back (v : list ptr) (x : ptr) : M (list ptr) :=
  operator_new;; mret (v ++ [x]).

(** ** [RegistrarBase<BASE>] *)

(** [registrars_.reset(p)] *)
Definition registrars_reset (BASE : string) (v : list ptr) : M unit :=
  modify (set_registrars_ (λ m, <[BASE := v]> m)).

(** [registrars_->push_back(x)] *)
Definition registrars_push_back (BASE : string) (x : ptr) : M unit :=
  r ← get (λ s, registrars_ s !! BASE);
  match r with
  | None => undefined
  | Some v => v' ← push_back v x; registrars_reset BASE v'
  end.

(** The constructor [RegistrarBase() noexcept try { ... } catch(...) { }],
    lines 39-50; [this] is the object under construction. *)
Definition RegistrarBase_ctor (BASE : string) (this : ptr) : M unit :=
  noexcept (ctor_function_try_block
    (r ← get (λ s, registrars_ s !! BASE);
     match r with
     | None => v ← new_vector; registrars_reset BASE v
     | Some _ => mret ()
     end;;
     registrars_push_back BASE this)
    (mret ())).

(** [*r] for a pointer [r]. *)
Definition deref (r : ptr) : M loc :=
  match r with
  | nullptr => undefined
  | ptr_to l => mret l
  end.

(** The virtual call [o()] on a reference [o] to a [RegistrarBase<BASE>].
    [operator()] is pure in [RegistrarBase]; its only override is
    [Registrar<PLUGIN>::operator()], lines 96-98, which returns [plugin_]. *)
Definition call_operator (o : loc) : M loc :=
  match o with
  | registrar_obj a =>
      x ← get (λ s, objects s !! a);
      match x with
      | Some _ => mret (plugin_member a)
      | None => undefined
      end
  | plugin_member _ => undefined
  end.

(** The loop over [*registrars_], lines 67-69: for every element [r], in
    order, the address of the result of calling [operator()] on the object
    [r] points to is pushed to the back of [ret]. *)
Fixpoint for_each_registrar (rs : list ptr) (ret : list ptr) : M (list ptr) :=
  match rs with
  | [] => mret ret
  | r :: rs' =>
      o ← deref r;
      p ← call_operator o;
      ret' ← push_back ret (addressof p);
      for_each_registrar rs' ret'
  end.

(** [static std::vector<BASE*> plugins()], lines 63-73. *)
Definition RegistrarBase_plugins (BASE : string) : M (list ptr) :=
  r ← get (λ s, registrars_ s !! BASE);
  match r with
  | Some v => for_each_registrar v []
  | None => mret []
  end.

(** ** [Registrar<PLUGIN>] *)

(** The default constructor of the member [plugin_] of the object at [a].
    The plug-in classes are the application's and no part of the header:
    the model is of programs whose plug-in constructors return.  A
    constructor that throws would leave [Registrar<PLUGIN>]'s constructor,
    which is not [noexcept], by its exception, with [this] already
    registered; nothing below is about such a program. *)
Definition construct_plugin_ (a : nat) : M unit :=
  modify (set_objects (alter (λ o, MkRegistrar (PLUGIN o) alive) a)).

(** The implicit default constructor of [Registrar<PLUGIN>] for the object
    at address [a]: the base class first, then the member. *)
Definition Registrar_ctor (P : plugin_class) (a : nat) : M unit :=
  RegistrarBase_ctor (Base P) (ptr_to (registrar_obj a));;
  construct_plugin_ a.

(** ** The free function [plugins<T>()], lines 114-117 *)
Definition plugins (T : string) : M (list ptr) := RegistrarBase_plugins T.

(** ** The macro [REGISTER_PLUGIN], line 144 *)

(** [static linktimeplugin::Registrar<x> x##registrar]: a declaration, in
    the scope where the macro is used, of a variable of static storage
    duration.  Its name is the argument token [x] pasted to [registrar];
    its type is [Registrar<X>] for the class [X] the token [x] names where
    the macro is used: the class of that name or, after an
    alias-declaration [using x = X;], a class of another name. *)
Record declaration := MkDeclaration {
  decl_scope : string;
  decl_name : string;
  decl_type : plugin_class
}.

Definition REGISTER_PLUGIN (scope : string) (x : string) (X : plugin_class) :
    declaration :=
  MkDeclaration scope (x +:+ "registrar") X.

(** Two declarations of one name in one scope are a redefinition, which the
    compiler rejects.  [no_redefinition] is this one rule and no other: the
    compiler also wants the argument to be an identifier and the class to
    have a [Base] and a default constructor, which is not modelled.  Every
    program that compiles satisfies [no_redefinition]. *)
Definition redefines (d1 d2 : declaration) : bool :=
  bool_decide (decl_scope d1 = decl_scope d2 ∧ decl_name d1 = decl_name d2).

Fixpoint no_redefinition (prog : list declaration) : bool :=
  match prog with
  | [] => true
  | d :: rest => forallb (λ d', negb (redefines d d')) rest && no_redefinition rest
  end.

(** Dynamic initialization of one declared object: the object gets its
    storage, then its constructor runs.  Returns the object's address. *)
Definition initialize (d : declaration) : M nat :=
  a ← get (λ s, length (objects s));
  modify (set_objects (λ os, os ++ [MkRegistrar (decl_type d) not_yet_constructed]));;
  Registrar_ctor (decl_type d) a;;
  mret a.

(** Static initialization of a program: its registrar objects are
    initialized one after the other, in the order the platform chose. *)
Fixpoint static_init (prog : list declaration) : M unit :=
  match prog with
  | [] => mret ()
  | d :: rest => initialize d;; static_init rest
  end.

(** ** Examples used below: the [Shape] and [Codec] families of the
    specification's scenarios *)
Definition Circle : plugin_class := PluginClass "Circle" "Shape".
Definition Square : plugin_class := PluginClass "Square" "Shape".
Definition Mp3 : plugin_class := PluginClass "Mp3" "Codec".
Definition Ogg : plugin_class := PluginClass "Ogg" "Codec".

(** [REGISTER_PLUGIN(Circle);] in circle.cpp, [REGISTER_PLUGIN(Square);] in
    square.cpp, [REGISTER_PLUGIN(Mp3);] in mp3.cpp, initialized in the order
    circle.cpp, mp3.cpp, square.cpp. *)
Definition shapes_uses : list (string * string * plugin_class) :=
  [("circle.cpp", "Circle", Circle); ("mp3.cpp", "Mp3", Mp3);
   ("square.cpp", "Square", Square)].

(** The state after the static initialization of that program. *)
Definition shapes_state : state :=
  MkState [MkRegistrar Circle alive; MkRegistrar Mp3 alive; MkRegistrar Square alive]
          (<["Shape" := [ptr_to (registrar_obj 0); ptr_to (registrar_obj 2)]]>
             (<["Codec" := [ptr_to (registrar_obj 1)]]> ∅))
          [].

(** That state after one more registration, [REGISTER_PLUGIN(Ogg);]. *)
Definition shapes_ogg_state : state :=
  MkState [MkRegistrar Circle alive; MkRegistrar Mp3 alive; MkRegistrar Square alive;
           MkRegistrar Ogg alive]
          (<["Shape" := [ptr_to (registrar_obj 0); ptr_to (registrar_obj 2)]]>
             (<["Codec" := [ptr_to (registrar_obj 1); ptr_to (registrar_obj 3)]]> ∅))
          [].

(** A program of one plug-in, [Circle], and its state after static
    initialization when the third coming allocation is going to fail. *)
Definition circle_state : state :=
  MkState [MkRegistrar Circle alive]
          (<["Shape" := [ptr_to (registrar_obj 0)]]> ∅)
          [false].

(** [REGISTER_PLUGIN(Circle);] used in two translation units. *)
Definition twice_uses : list (string * string * plugin_class) :=
  [("circle.cpp", "Circle", Circle); ("shapes.cpp", "Circle", Circle)].

(** [using Round = Circle; REGISTER_PLUGIN(Circle); REGISTER_PLUGIN(Round);]
    in one translation unit: two names, [Circleregistrar] and
    [Roundregistrar], for two objects of type [Registrar<Circle>]. *)
Definition alias_uses : list (string * string * plugin_class) :=
  [("shapes.cpp", "Circle", Circle); ("shapes.cpp", "Round", Circle)].

(** The state after the static initialization of [twice_uses], and of
    [alias_uses]: two objects of class [Circle], two entries. *)
Definition twice_state : state :=
  MkState [MkRegistrar Circle alive; MkRegistrar Circle alive]
          (<["Shape" := [ptr_to (registrar_obj 0); ptr_to (registrar_obj 1)]]> ∅)
          [].

(** ** Notions used to state the properties *)

(** The pointer to the registrar object at [a] ([this] in its constructor)
    and the pointer to its member [plugin_]. *)
Definition registrar_ptr (a : nat) : ptr := ptr_to (registrar_obj a).
Definition plugin_ptr (a : nat) : ptr := addressof (plugin_member a).

(** The class [P] belongs to the plug-in family with root [B]. *)
Definition in_family (B : string) (P : plugin_class) : Prop := Base P = B.

#[global] Instance in_family_dec B P : Decision (in_family B P).
Proof. unfold in_family. apply _. Defined.

(** The addresses, in increasing order, of the objects of family [B] among
    [os], the first of which has address [a]. *)
Fixpoint family_from (B : string) (a : nat) (os : list Registrar) : list nat :=
  match os with
  | [] => []
  | o :: os' =>
      if decide (in_family B (PLUGIN o))
      then a :: family_from B (S a) os'
      else family_from B (S a) os'
  end.

(** The registry of a state for the root [B]: the vector [registrars_]
    owns, no element when the pointer is null. *)
Definition registry (B : string) (s : state) : list ptr :=
  default [] (registrars_ s !! B).

(** The invariant of the states between two registrations: the registry of
    every root lists its objects in the order of their addresses, and every
    object is fully constructed. *)
Definition registry_inv (s : state) : Prop :=
  (∀ B, registry B s = registrar_ptr <$> family_from B 0 (objects s)) ∧
  Forall (λ o, plugin_ o = alive) (objects s).

(** The address [a] is the address of an object of the state. *)
Definition valid (s : state) (a : nat) : Prop := is_Some (objects s !! a).

(** No coming allocation request fails. *)
Definition no_failure (h : list bool) : Prop := Forall (λ b, b = true) h.

(** The value a call returns and the state it leaves, when there is one. *)
Definition value {A} (o : outcome A) : option A :=
  match o with
  | Normal a _ => Some a
  | _ => None
  end.

Definition final {A} (o : outcome A) : option state :=
  match o with
  | Normal _ s | Throw _ s => Some s
  | _ => None
  end.

(** [queried s s']: [s'] is reached from [s] by calls of [plugins<T>()],
    for any roots [T], whether they return or throw. *)
Inductive queried : state → state → Prop :=
  | queried_refl s : queried s s
  | queried_step s T s' s'' :
      final (plugins T s) = Some s' → queried s' s'' → queried s s''.

(** The object a program's declaration creates once initialized, and the
    expansion of a list of macro uses [(scope, x, X)]: the scope of the use,
    the argument token and the class the token names there. *)
Definition made (d : declaration) : Registrar := MkRegistrar (decl_type d) alive.

Definition expand (uses : list (string * string * plugin_class)) : list declaration :=
  (λ u, REGISTER_PLUGIN u.1.1 u.1.2 u.2) <$> uses.

(** ** Further notions: the construction window, classes *)


(** The class of the plug-in a returned pointer points to. *)
Definition pointee_class (s : state) (p : ptr) : option plugin_class :=
  match p with
  | ptr_to (plugin_member a) => PLUGIN <$> objects s !! a
  | _ => None
  end.


(** The program of [shapes_uses] initialized in the opposite order, and its
    state after static initialization. *)
Definition shapes_rev_uses : list (string * string * plugin_class) :=
  [("square.cpp", "Square", Square); ("mp3.cpp", "Mp3", Mp3);
   ("circle.cpp", "Circle", Circle)].

Definition shapes_rev_state : state :=
  MkState [MkRegistrar Square alive; MkRegistrar Mp3 alive; MkRegistrar Circle alive]
          (<["Shape" := [ptr_to (registrar_obj 0); ptr_to (registrar_obj 2)]]>
             (<["Codec" := [ptr_to (registrar_obj 1)]]> ∅))
          [].

(** * Properties *)

(** ** The monad *)

Lemma bind_Normal {A B} (m : M A) (f : A → M B) s b s' :
  (m ≫= f) s = Normal b s' ↔ ∃ a s1, m s = Normal a s1 ∧ f a s1 = Normal b s'.
Proof.
  unfold mbind, M_bind. split.
  - destruct (m s) as [a s1| | |]; try discriminate. eauto.
  - intros (a & s1 & -> & ?). done.
Qed.

Lemma bind_Throw {A B} (m : M A) (f : A → M B) s e s' :
  (m ≫= f) s = Throw e s' ↔
  m s = Throw e s' ∨ ∃ a s1, m s = Normal a s1 ∧ f a s1 = Throw e s'.
Proof.
  unfold mbind, M_bind. split.
  - destruct (m s) as [a s1|e1 s1| |]; intros H; try discriminate.
    + right. eauto.
    + left. by simplify_eq.
  - intros [->|(a & s1 & -> & ?)]; done.
Qed.

Ltac unfold_M :=
  unfold mbind, mret, M_bind, M_ret, get, modify, undefined in *.

(** ** The allocator *)

Lemma operator_new_cases s :
  (∃ s', operator_new s = Normal () s' ∧ objects s' = objects s ∧
         registrars_ s' = registrars_ s ∧ heap s' = tail (heap s) ∧
         head (heap s) ≠ Some false) ∨
  (∃ s', operator_new s = Throw bad_alloc s' ∧ objects s' = objects s ∧
         registrars_ s' = registrars_ s ∧ heap s' = tail (heap s) ∧
         head (heap s) = Some false).
Proof.
  unfold operator_new. destruct (heap s) as [|[] h] eqn:E; simpl.
  - left. exists s. by rewrite ?E.
  - left. by eexists.
  - right. by eexists.
Qed.

Lemma no_failure_tail h : no_failure h → no_failure (tail h).
Proof. destruct 1; [constructor | done]. Qed.

Lemma no_failure_head h : no_failure h → head h ≠ Some false.
Proof. destruct 1 as [|b h Hb _]; simpl; [done | by subst]. Qed.

Lemma no_failure_false h : no_failure h ↔ false ∉ h.
Proof.
  unfold no_failure. rewrite Forall_forall. split.
  - intros H Hin. by apply H in Hin.
  - intros H [] Hin; [done | contradiction].
Qed.

Lemma head_false_elem_of h : head h = Some false → false ∈ h.
Proof. destruct h as [|b h]; simpl; [done |]. intros [= ->]. left. Qed.

Lemma elem_of_tail {A} (x : A) l : x ∈ tail l → x ∈ l.
Proof. destruct l; simpl; [done | by right]. Qed.

Lemma push_back_cases v x s :
  (∃ s', push_back v x s = Normal (v ++ [x]) s' ∧ objects s' = objects s ∧
         registrars_ s' = registrars_ s ∧ heap s' = tail (heap s) ∧
         head (heap s) ≠ Some false) ∨
  (∃ s', push_back v x s = Throw bad_alloc s' ∧ objects s' = objects s ∧
         registrars_ s' = registrars_ s ∧ heap s' = tail (heap s) ∧
         head (heap s) = Some false).
Proof.
  unfold push_back.
  destruct (operator_new_cases s) as [(s' & E & ?)|(s' & E & ?)]; [left | right];
    exists s'; (split; [|done]); unfold_M; by rewrite E.
Qed.

Lemma elem_of_drop_heap (k : nat) (h : list bool) b : b ∈ drop k h → b ∈ h.
Proof.
  intros Hin. rewrite <- (take_drop k h). apply elem_of_app. by right.
Qed.

Lemma alter_snoc {A} (f : A → A) (l : list A) (x : A) :
  alter f (length l) (l ++ [x]) = l ++ [f x].
Proof.
  replace (length l) with (length l + 0) by lia. by rewrite alter_app_r.
Qed.

(** ** The constructors *)

Lemma registry_lookup_None B s : registrars_ s !! B = None → registry B s = [].
Proof. unfold registry. by intros ->. Qed.

Lemma registry_lookup_Some B s v : registrars_ s !! B = Some v → registry B s = v.
Proof. unfold registry. by intros ->. Qed.

(** The base-class constructor either registers [this] at the end of the
    registry of [B] or ends the process; it never returns without having
    registered, and never leaves by an exception. *)
Lemma RegistrarBase_ctor_cases B this s :
  (RegistrarBase_ctor B this s = Terminate ∧ false ∈ heap s) ∨
  (∃ s' k, RegistrarBase_ctor B this s = Normal () s' ∧
           objects s' = objects s ∧
           registrars_ s' = <[B := registry B s ++ [this]]> (registrars_ s) ∧
           heap s' = drop k (heap s)).
Proof.
  destruct s as [os rs h]. unfold registry, RegistrarBase_ctor, noexcept,
    ctor_function_try_block, registrars_push_back, registrars_reset, new_vector,
    push_back, operator_new, set_registrars_, set_heap.
  unfold_M. simpl. destruct (rs !! B) as [v|] eqn:E; simpl.
  - rewrite E. destruct h as [|[] h]; simpl; rewrite ?E; simpl.
    + right. by exists (MkState os (<[B:=v ++ [this]]> rs) []), 0.
    + right. by exists (MkState os (<[B:=v ++ [this]]> rs) h), 1.
    + left. split; [done | left].
  - destruct h as [|[] [|[] h]]; simpl; rewrite ?lookup_insert_eq; simpl;
      rewrite ?insert_insert_eq.
    + right. by exists (MkState os (<[B:=[this]]> rs) []), 0.
    + right. by exists (MkState os (<[B:=[this]]> rs) []), 1.
    + right. by exists (MkState os (<[B:=[this]]> rs) h), 2.
    + left. split; [done | right; left].
    + left. split; [done | left].
    + left. split; [done | left].
    + left. split; [done | left].
Qed.

(** Initializing a declared object appends one fully constructed object
    and one entry at the end of its family's registry, or ends the process. *)
Lemma initialize_cases d s :
  (initialize d s = Terminate ∧ false ∈ heap s) ∨
  (∃ s' k, initialize d s = Normal (length (objects s)) s' ∧
           objects s' = objects s ++ [made d] ∧
           registrars_ s' =
             <[Base (decl_type d) :=
                 registry (Base (decl_type d)) s ++ [registrar_ptr (length (objects s))]]>
               (registrars_ s) ∧
           heap s' = drop k (heap s)).
Proof.
  set (s1 := set_objects (λ os, os ++ [MkRegistrar (decl_type d) not_yet_constructed]) s).
  assert (initialize d s =
    (RegistrarBase_ctor (Base (decl_type d)) (registrar_ptr (length (objects s)));;
     construct_plugin_ (length (objects s));; mret (length (objects s))) s1) as ->.
  { unfold initialize, Registrar_ctor. unfold_M. fold s1.
    by destruct (RegistrarBase_ctor _ _ s1). }
  destruct (RegistrarBase_ctor_cases (Base (decl_type d))
              (registrar_ptr (length (objects s))) s1)
    as [[E Hh]|(s' & k & E & Ho & Hr & Hh)].
  - left. unfold_M. by rewrite E.
  - right. exists (set_objects (alter (λ o, MkRegistrar (PLUGIN o) alive)
                                  (length (objects s))) s'), k.
    unfold construct_plugin_. unfold_M. rewrite E. simpl.
    rewrite Ho, Hr, Hh. split_and!; try done.
    subst s1. simpl. by rewrite alter_snoc.
Qed.

Lemma initialize_Normal d s a s' :
  initialize d s = Normal a s' →
  a = length (objects s) ∧ objects s' = objects s ++ [made d] ∧
  registrars_ s' =
    <[Base (decl_type d) := registry (Base (decl_type d)) s ++ [registrar_ptr a]]>
      (registrars_ s) ∧
  ∃ k, heap s' = drop k (heap s).
Proof.
  destruct (initialize_cases d s) as [[E _]|(s1 & k & E & ? & ? & ?)];
    rewrite E; intros Heq; [done |]. simplify_eq. eauto.
Qed.

(** With no failing allocation ahead, the initialization returns. *)
Lemma initialize_returns d s :
  no_failure (heap s) →
  ∃ s', initialize d s = Normal (length (objects s)) s' ∧ no_failure (heap s').
Proof.
  intros Hh. destruct (initialize_cases d s) as [[_ F]|(s' & k & E & _ & _ & Hk)].
  - by apply no_failure_false in Hh.
  - exists s'. split; [done |]. rewrite Hk. by apply Forall_drop.
Qed.

(** ** The objects of a family *)

Section family.
Variable B : string.

Let P (o : Registrar) : Prop := in_family B (PLUGIN o).

Lemma family_from_app a os os' :
  family_from B a (os ++ os') =
  family_from B a os ++ family_from B (a + length os) os'.
Proof.
  revert a. induction os as [|o os IH]; intros a; simpl.
  - by rewrite Nat.add_0_r.
  - rewrite IH. replace (S a + length os) with (a + S (length os)) by lia.
    by case_decide.
Qed.

(** The [i]-th address of the family is the address of the object of the
    family that has exactly [i] objects of the family before it. *)
Lemma family_from_lookup a os i a' :
  family_from B a os !! i = Some a' ↔
  ∃ o, a ≤ a' ∧ os !! (a' - a) = Some o ∧ P o ∧
       length (filter P (take (a' - a) os)) = i.
Proof.
  revert a i. induction os as [|o os IH]; intros a i; simpl.
  - split; [done |]. by intros (o & _ & ? & _).
  - destruct (decide (in_family B (PLUGIN o))) as [Hf|Hf].
    + destruct i as [|i]; simpl.
      * split.
        -- intros [= <-]. exists o. by rewrite Nat.sub_diag.
        -- intros (o' & Hle & Hl & Hf' & Hlen).
           destruct (a' - a) as [|n] eqn:En; [f_equal; lia |].
           simpl in Hlen. rewrite filter_cons_True in Hlen by done. done.
      * rewrite IH. split.
        -- intros (o' & Hle & Hl & Hf' & Hlen). exists o'.
           replace (a' - a) with (S (a' - S a)) by lia. simpl.
           rewrite filter_cons_True by done. simpl.
           split_and!; [lia | done | done | lia].
        -- intros (o' & Hle & Hl & Hf' & Hlen).
           destruct (a' - a) as [|n] eqn:En; [done |].
           exists o'. replace (a' - S a) with n by lia. simpl in *.
           rewrite filter_cons_True in Hlen by done. simpl in Hlen.
           split_and!; [lia | done | done | lia].
    + rewrite IH. split.
      * intros (o' & Hle & Hl & Hf' & Hlen). exists o'.
        replace (a' - a) with (S (a' - S a)) by lia. simpl.
        rewrite filter_cons_False by done.
        split_and!; [lia | done | done | lia].
      * intros (o' & Hle & Hl & Hf' & Hlen).
        destruct (a' - a) as [|n] eqn:En; [by simplify_eq/= |].
        exists o'. replace (a' - S a) with n by lia. simpl in *.
        rewrite filter_cons_False in Hlen by done.
        split_and!; [lia | done | done | lia].
Qed.

Lemma elem_of_family_from a os a' :
  a' ∈ family_from B a os ↔ ∃ o, a ≤ a' ∧ os !! (a' - a) = Some o ∧ P o.
Proof.
  rewrite list_elem_of_lookup. split.
  - intros (i & Hi). apply family_from_lookup in Hi as (o & ? & ? & ? & _). eauto.
  - intros (o & ? & ? & ?). eexists. apply family_from_lookup. eauto.
Qed.

Lemma NoDup_family_from a os : NoDup (family_from B a os).
Proof.
  apply NoDup_alt. intros i j a' Hi Hj.
  apply family_from_lookup in Hi as (_ & _ & _ & _ & <-).
  by apply family_from_lookup in Hj as (_ & _ & _ & _ & <-).
Qed.


(** The family's addresses and the family's objects, position by position. *)
Lemma family_from_Forall2 pre os :
  Forall2 (λ a' o, (pre ++ os) !! a' = Some o)
          (family_from B (length pre) os) (filter P os).
Proof.
  revert pre. induction os as [|o os IH]; intros pre; simpl; [constructor |].
  specialize (IH (pre ++ [o])). rewrite length_app, <- List.app_assoc in IH.
  simpl in IH. replace (length pre + 1) with (S (length pre)) in IH by lia.
  destruct (decide (in_family B (PLUGIN o))).
  - rewrite filter_cons_True by done. constructor; [|done].
    by rewrite lookup_app_r, Nat.sub_diag by lia.
  - by rewrite filter_cons_False by done.
Qed.

Lemma family_from_None a os :
  Forall (λ o, ¬ P o) os → family_from B a os = [].
Proof.
  intros H. revert a. induction H as [|o os Ho _ IH]; intros a; simpl; [done |].
  by rewrite decide_False.
Qed.
End family.

(** ** The invariant *)

#[global] Instance registrar_ptr_inj : Inj (=) (=) registrar_ptr.
Proof. by intros a b [= ->]. Qed.

#[global] Instance plugin_ptr_inj : Inj (=) (=) plugin_ptr.
Proof. by intros a b [= ->]. Qed.

Lemma registry_inv_initial h : registry_inv (initial h).
Proof. split; [done | constructor]. Qed.

Lemma initialize_registry d s a s' B :
  initialize d s = Normal a s' →
  registry B s' =
    if decide (in_family B (decl_type d))
    then registry B s ++ [registrar_ptr a]
    else registry B s.
Proof.
  intros (-> & _ & Hr & _)%initialize_Normal. unfold registry at 1.
  rewrite Hr. unfold in_family. case_decide as Hd.
  - subst B. by rewrite lookup_insert_eq.
  - by rewrite lookup_insert_ne.
Qed.

Lemma initialize_inv d s a s' :
  initialize d s = Normal a s' → registry_inv s → registry_inv s'.
Proof.
  intros Hi [Hreg Hal]. pose proof Hi as (-> & Ho & _ & _)%initialize_Normal.
  split.
  - intros B. rewrite (initialize_registry _ _ _ _ _ Hi), Ho, family_from_app.
    rewrite fmap_app, <- Hreg. simpl.
    destruct (decide (in_family B (decl_type d))); simpl; by rewrite ?app_nil_r.
  - rewrite Ho. apply Forall_app. split; [done |]. by repeat constructor.
Qed.

Lemma static_init_Normal prog s s' :
  static_init prog s = Normal () s' → registry_inv s →
  registry_inv s' ∧ objects s' = objects s ++ (made <$> prog) ∧
  ∃ k, heap s' = drop k (heap s).
Proof.
  revert s. induction prog as [|d prog IH]; intros s; simpl.
  - intros [= <-] ?. rewrite app_nil_r. split_and!; [done.. | by exists 0].
  - intros (a & s1 & Hi & Hs)%bind_Normal Hinv.
    destruct (IH _ Hs (initialize_inv _ _ _ _ Hi Hinv)) as (? & Ho & k & Hk).
    apply initialize_Normal in Hi as (_ & Ho1 & _ & k1 & Hk1).
    split_and!; [done | |].
    + by rewrite Ho, Ho1, <- List.app_assoc.
    + exists (k1 + k). by rewrite Hk, Hk1, drop_drop.
Qed.

(** After static initialization the objects are those the program declares,
    in initialization order: the object at address [a] comes from the
    [a]-th declaration. *)
Lemma static_init_initial prog h s :
  static_init prog (initial h) = Normal () s →
  registry_inv s ∧ objects s = made <$> prog.
Proof.
  intros Hs. by destruct (static_init_Normal _ _ _ Hs (registry_inv_initial h))
    as (? & ? & _).
Qed.

Lemma static_init_returns prog s :
  no_failure (heap s) →
  ∃ s', static_init prog s = Normal () s' ∧ no_failure (heap s').
Proof.
  revert s. induction prog as [|d prog IH]; intros s Hh; simpl.
  - by exists s.
  - destruct (initialize_returns d s Hh) as (s1 & E & Hh1).
    destruct (IH s1 Hh1) as (s' & E' & ?). exists s'. split; [|done].
    apply bind_Normal. eauto.
Qed.

(** The process ends during static initialization only if an allocation
    fails; static initialization never leaves by an exception. *)
Lemma static_init_cases prog s :
  (∃ s', static_init prog s = Normal () s') ∨
  (static_init prog s = Terminate ∧ false ∈ heap s).
Proof.
  revert s. induction prog as [|d prog IH]; intros s; simpl.
  - left. by exists s.
  - unfold_M. destruct (initialize_cases d s) as [[E ?]|(s1 & k & E & _ & _ & Hk)];
      rewrite E; [by right |].
    destruct (IH s1) as [?|[E' Hin]]; [by left | right].
    split; [done |]. rewrite Hk in Hin. by eapply elem_of_drop_heap.
Qed.

(** ** The query *)

Lemma registry_inv_valid s B :
  registry_inv s → Forall (valid s) (family_from B 0 (objects s)).
Proof.
  intros _. apply Forall_forall. intros a (o & _ & Ho & _)%elem_of_family_from.
  rewrite Nat.sub_0_r in Ho. by exists o.
Qed.

Lemma call_operator_Normal o s p s' :
  call_operator o s = Normal p s' ↔
  ∃ a, o = registrar_obj a ∧ p = plugin_member a ∧ valid s a ∧ s' = s.
Proof.
  unfold valid. destruct o as [a|a]; simpl; unfold_M.
  - destruct (objects s !! a) as [x|] eqn:E; split.
    + intros [= <- <-]. exists a. eauto.
    + by intros (? & [= <-] & -> & _ & ->).
    + done.
    + intros (? & [= <-] & _ & [? Hx] & _). by rewrite E in Hx.
  - split; [done | by intros (? & ? & _)].
Qed.

(** The loop, when it returns: every element was a pointer to a registrar
    object, and the result holds the addresses of their plug-ins in the
    same order. *)
Lemma for_each_registrar_Normal rs ret s l s' :
  for_each_registrar rs ret s = Normal l s' →
  ∃ addrs, rs = registrar_ptr <$> addrs ∧ l = ret ++ (plugin_ptr <$> addrs) ∧
           Forall (valid s) addrs ∧
           objects s' = objects s ∧ registrars_ s' = registrars_ s.
Proof.
  revert ret s. induction rs as [|r rs IH]; intros ret s; simpl.
  - intros [= <- <-]. exists []. by rewrite app_nil_r.
  - intros (o & s1 & Hd & H)%bind_Normal.
    apply bind_Normal in H as (p & s2 & Hc & H).
    apply bind_Normal in H as (ret' & s3 & Hp & H).
    destruct r as [|o']; [done |]. injection Hd as <- <-.
    apply call_operator_Normal in Hc as (a & -> & -> & Hv & ->).
    destruct (push_back_cases ret (addressof (plugin_member a)) s)
      as [(s4 & E & Ho & Hr & _)|(s4 & E & _)]; rewrite E in Hp; [|done].
    injection Hp as <- <-.
    apply IH in H as (addrs & -> & -> & Hvs & Ho' & Hr').
    exists (a :: addrs). rewrite <- List.app_assoc. split_and!; try done.
    + constructor; [done |]. unfold valid in *. by rewrite <- Ho.
    + congruence.
    + congruence.
Qed.

Lemma for_each_registrar_cons a rs ret s :
  valid s a →
  for_each_registrar (registrar_ptr a :: rs) ret s =
  (push_back ret (plugin_ptr a) ≫= for_each_registrar rs) s.
Proof. intros [x Hx]. simpl. unfold_M. simpl. unfold_M. by rewrite Hx. Qed.

(** On valid entries the loop returns, or throws [bad_alloc] because one of
    its allocations failed; in both cases only the allocator has changed. *)
Lemma for_each_registrar_valid addrs ret s :
  Forall (valid s) addrs →
  (∃ s', for_each_registrar (registrar_ptr <$> addrs) ret s =
           Normal (ret ++ (plugin_ptr <$> addrs)) s' ∧
         objects s' = objects s ∧ registrars_ s' = registrars_ s ∧
         heap s' = drop (length addrs) (heap s) ∧
         false ∉ take (length addrs) (heap s)) ∨
  (∃ s', for_each_registrar (registrar_ptr <$> addrs) ret s = Throw bad_alloc s' ∧
         objects s' = objects s ∧ registrars_ s' = registrars_ s ∧
         false ∈ take (length addrs) (heap s)).
Proof.
  intros Hv. revert ret s Hv. induction addrs as [|a addrs IH]; intros ret s Hv.
  - left. exists s. simpl. rewrite app_nil_r. split_and!; try done. apply not_elem_of_nil.
  - apply Forall_cons in Hv as [Ha Hv].
    rewrite !fmap_cons, for_each_registrar_cons by done. unfold mbind, M_bind.
    destruct (push_back_cases ret (plugin_ptr a) s)
      as [(s1 & E & Ho & Hr & Hh & Hf)|(s1 & E & Ho & Hr & _ & Hf)]; rewrite E.
    + assert (Forall (valid s1) addrs) as Hv1.
      { eapply Forall_impl; [done |]. unfold valid. intros ?. by rewrite Ho. }
      destruct (IH (ret ++ [plugin_ptr a]) s1 Hv1)
        as [(s' & E' & Ho' & Hr' & Hh' & Hn)|(s' & E' & Ho' & Hr' & Hin)];
        rewrite Hh in *.
      * left. exists s'. rewrite E', <- List.app_assoc.
        split_and!; [done | congruence | congruence | |].
        -- rewrite Hh'. destruct (heap s); simpl; by rewrite ?drop_nil.
        -- destruct (heap s) as [|b h]; simpl in *; [apply not_elem_of_nil |].
           apply not_elem_of_cons. split; [|done]. by destruct b.
      * right. exists s'. rewrite E'. split_and!; [done | congruence.. |].
        destruct (heap s) as [|b h]; simpl in *; [by rewrite take_nil in Hin |].
        by right.
    + right. exists s1. split_and!; [done.. |].
      destruct (heap s) as [|b h]; simplify_eq/=. left.
Qed.

(** Whatever the registry holds, the loop changes neither the objects nor
    the registries. *)
Lemma for_each_registrar_frame rs ret s s' :
  final (for_each_registrar rs ret s) = Some s' →
  objects s' = objects s ∧ registrars_ s' = registrars_ s.
Proof.
  revert ret s. induction rs as [|r rs IH]; intros ret s; simpl.
  - by intros [= <-].
  - unfold mbind, M_bind. destruct r as [|[a|a]]; simpl; try done.
    unfold_M. destruct (objects s !! a); simpl; [|done].
    destruct (push_back_cases ret (addressof (plugin_member a)) s)
      as [(s1 & E & Ho & Hr & _)|(s1 & E & Ho & Hr & _)]; rewrite E; simpl.
    + intros [??]%IH. split; congruence.
    + by intros [= <-].
Qed.

Lemma plugins_frame T s s' :
  final (plugins T s) = Some s' →
  objects s' = objects s ∧ registrars_ s' = registrars_ s.
Proof.
  unfold plugins, RegistrarBase_plugins. unfold_M.
  destruct (registrars_ s !! T) as [v|]; simpl.
  - apply for_each_registrar_frame.
  - by intros [= <-].
Qed.

(** What [plugins<T>()] returns, when it returns: the addresses of the
    members [plugin_] of the objects the registry of [T] points to, in the
    order of the registry. *)
Lemma plugins_Normal T s l s' :
  plugins T s = Normal l s' →
  ∃ addrs, registry T s = registrar_ptr <$> addrs ∧ l = plugin_ptr <$> addrs ∧
           Forall (valid s) addrs ∧
           objects s' = objects s ∧ registrars_ s' = registrars_ s.
Proof.
  unfold plugins, RegistrarBase_plugins, registry. unfold_M.
  destruct (registrars_ s !! T) as [v|]; simpl.
  - apply for_each_registrar_Normal.
  - intros [= <- <-]. by exists [].
Qed.

(** In a state of the invariant, [plugins<T>()] returns the plug-ins of the
    family in the order of their addresses, or throws [bad_alloc] because
    one of the allocations for the result failed. *)
Lemma plugins_cases T s :
  registry_inv s →
  let addrs := family_from T 0 (objects s) in
  (∃ s', plugins T s = Normal (plugin_ptr <$> addrs) s' ∧
         objects s' = objects s ∧ registrars_ s' = registrars_ s ∧
         heap s' = drop (length addrs) (heap s) ∧
         false ∉ take (length addrs) (heap s)) ∨
  (∃ s', plugins T s = Throw bad_alloc s' ∧
         objects s' = objects s ∧ registrars_ s' = registrars_ s ∧
         false ∈ take (length addrs) (heap s)).
Proof.
  intros Hinv addrs. pose proof (proj1 Hinv T) as Hreg. fold addrs in Hreg.
  unfold plugins, RegistrarBase_plugins, registry in *. unfold_M.
  destruct (registrars_ s !! T) as [v|]; simpl in Hreg.
  - subst v. apply (for_each_registrar_valid addrs []).
    by apply registry_inv_valid.
  - symmetry in Hreg. apply fmap_nil_inv in Hreg as ->. left. exists s.
    split_and!; try done. apply not_elem_of_nil.
Qed.

Lemma registry_inv_set_heap h s : registry_inv s → registry_inv (set_heap h s).
Proof. by intros [??]. Qed.

Lemma queried_frame s s' :
  queried s s' → objects s' = objects s ∧ registrars_ s' = registrars_ s.
Proof.
  induction 1 as [|s T s1 s2 Hq _ [IHo IHr]]; [done |].
  apply plugins_frame in Hq as [??]. split; congruence.
Qed.

Lemma filter_made T (prog : list declaration) :
  filter (λ o, in_family T (PLUGIN o)) (made <$> prog) =
  made <$> filter (λ d, in_family T (decl_type d)) prog.
Proof.
  induction prog as [|d prog IH]; [done |]. rewrite fmap_cons, !filter_cons.
  simpl. rewrite IH. by case_decide.
Qed.

(** ** The macro *)



(** ** The example programs *)

Lemma shapes_static_init :
  static_init (expand shapes_uses) (initial []) = Normal () shapes_state.
Proof. vm_compute. reflexivity. Qed.

Lemma circle_static_init :
  static_init (expand [("circle.cpp", "Circle", Circle)]) (initial [true; true; false]) =
  Normal () circle_state.
Proof. vm_compute. reflexivity. Qed.

Lemma twice_static_init :
  static_init (expand twice_uses) (initial []) = Normal () twice_state.
Proof. vm_compute. reflexivity. Qed.

(** * The claims *)

(** ** C1: allocation failure during registration *)

(** C1.  The claim: when the allocation of the registry storage fails while
    a [RegistrarBase] is constructed, the exception is swallowed, that one
    registration is dropped and the program goes on.  The code: the handler
    of the constructor's function-try-block ends without a [return], so the
    exception is thrown again, and the constructor being [noexcept] the
    process is ended by [std::terminate].  Here the first registration of
    the program, with the allocation of [new std::vector] failing, and with
    that allocation succeeding and the one of [push_back] failing. *)
Theorem registration_alloc_failure_terminates :
  initialize (REGISTER_PLUGIN "circle.cpp" "Circle" Circle) (initial [false]) = Terminate ∧
  initialize (REGISTER_PLUGIN "circle.cpp" "Circle" Circle) (initial [true; false]) = Terminate.
Proof. split; reflexivity. Qed.

(** The same for every state: a registration (of a plug-in whose own
    constructor returns) returns with the entry registered, or the process
    is ended; no registration is ever dropped. *)
Lemma registration_never_dropped d s :
  (initialize d s = Terminate ∧ false ∈ heap s) ∨
  (∃ s', initialize d s = Normal (length (objects s)) s' ∧
         registrar_ptr (length (objects s)) ∈ registry (Base (decl_type d)) s').
Proof.
  destruct (initialize_cases d s) as [?|(s' & k & E & _ & Hr & _)]; [by left |].
  right. exists s'. split; [done |]. unfold registry at 1.
  rewrite Hr, lookup_insert_eq. simpl. apply elem_of_app. right. left.
Qed.

(** ** C2: the outcomes of the query *)

(** C2, as stated, fails: with one plug-in registered and the allocation for
    the result vector failing, [plugins<Shape>()] leaves by [std::bad_alloc]
    instead of returning a sequence. *)
Lemma plugins_can_throw :
  static_init (expand [("circle.cpp", "Circle", Circle)]) (initial [true; true; false]) =
    Normal () circle_state ∧
  plugins "Shape" circle_state = Throw bad_alloc (set_heap [] circle_state) ∧
  ¬ ∃ l s', plugins "Shape" circle_state = Normal l s'.
Proof.
  split_and!; [vm_compute; reflexivity..|].
  intros (l & s' & H). vm_compute in H. discriminate.
Qed.

(** C2, amended.  After static initialization (in every state of the
    invariant) [plugins<T>()] either returns a sequence with one reference
    per entry of the registry of [T], or throws [std::bad_alloc], and this
    only when an allocation fails and the registry of [T] is not empty.  It
    never ends the process and its behaviour is never undefined. *)
Theorem plugins_outcomes s T :
  registry_inv s →
  (∃ l s', plugins T s = Normal l s' ∧ length l = length (registry T s)) ∨
  (∃ s', plugins T s = Throw bad_alloc s' ∧ false ∈ heap s ∧ registry T s ≠ []).
Proof.
  intros Hinv. pose proof (proj1 Hinv T) as Hreg.
  destruct (plugins_cases T s Hinv) as [(s' & E & _)|(s' & E & _ & _ & Hin)].
  - left. eexists _, s'. split; [done |]. by rewrite Hreg, !length_fmap.
  - right. exists s'. split_and!; [done | |].
    + apply elem_of_take in Hin as (i & Hi & _). by eapply list_elem_of_lookup_2.
    + rewrite Hreg. intros Hnil%fmap_nil_inv. rewrite Hnil in Hin. simpl in Hin.
      by apply elem_of_nil in Hin.
Qed.

Lemma plugins_outcomes_witness :
  registry_inv shapes_state ∧
  ((∃ l s', plugins "Shape" shapes_state = Normal l s' ∧
            length l = length (registry "Shape" shapes_state)) ∨
   (∃ s', plugins "Shape" shapes_state = Throw bad_alloc s' ∧
          false ∈ heap shapes_state ∧ registry "Shape" shapes_state ≠ [])).
Proof.
  assert (registry_inv shapes_state) as Hinv.
  { apply (static_init_initial (expand shapes_uses) []). vm_compute. reflexivity. }
  split; [exact Hinv |]. exact (plugins_outcomes shapes_state "Shape" Hinv).
Defined.


(** ** C5: a family without registrations *)

(** C5.  When no declaration of the program registers a class of the family
    [T], [plugins<T>()] returns the empty sequence, whatever the allocator
    does, and leaves the state as it is. *)
Theorem plugins_empty_when_never_registered prog h s T :
  static_init prog (initial h) = Normal () s →
  Forall (λ d, ¬ in_family T (decl_type d)) prog →
  plugins T s = Normal [] s.
Proof.
  intros [Hinv Ho]%static_init_initial Hnone.
  pose proof (proj1 Hinv T) as Hreg. rewrite Ho, family_from_None in Hreg.
  - unfold plugins, RegistrarBase_plugins, registry in *. unfold_M.
    destruct (registrars_ s !! T) as [v|]; simpl in *; by subst.
  - by apply Forall_fmap.
Qed.

Lemma plugins_empty_when_never_registered_witness :
  static_init (expand [("circle.cpp", "Circle", Circle)]) (initial [true; true; false]) =
    Normal () circle_state ∧
  Forall (λ d, ¬ in_family "Codec" (decl_type d)) (expand [("circle.cpp", "Circle", Circle)]) ∧
  plugins "Codec" circle_state = Normal [] circle_state.
Proof.
  assert (static_init (expand [("circle.cpp", "Circle", Circle)]) (initial [true; true; false]) =
            Normal () circle_state) as Hs by (vm_compute; reflexivity).
  assert (Forall (λ d, ¬ in_family "Codec" (decl_type d))
            (expand [("circle.cpp", "Circle", Circle)])) as Hn
    by (repeat constructor; vm_compute; discriminate).
  split_and!; [exact Hs | exact Hn |].
  exact (plugins_empty_when_never_registered _ _ _ "Codec" Hs Hn).
Defined.

(** ** C9: the query is read-only *)

(** C9.  In every state of the invariant a call of [plugins<T>()] ends in a
    state whose registries (the pointer and the entries, for every base
    type) and whose objects are those of the state before. *)
Theorem plugins_read_only s T :
  registry_inv s →
  ∃ s', final (plugins T s) = Some s' ∧
        registrars_ s' = registrars_ s ∧ objects s' = objects s.
Proof.
  intros Hinv.
  destruct (plugins_cases T s Hinv) as [(s' & E & ? & ? & _)|(s' & E & ? & ? & _)];
    exists s'; by rewrite E.
Qed.

Lemma plugins_read_only_witness :
  registry_inv shapes_state ∧
  ∃ s', final (plugins "Shape" shapes_state) = Some s' ∧
        registrars_ s' = registrars_ shapes_state ∧ objects s' = objects shapes_state.
Proof.
  assert (registry_inv shapes_state) as Hinv.
  { apply (static_init_initial (expand shapes_uses) []). vm_compute. reflexivity. }
  split; [exact Hinv |]. exact (plugins_read_only shapes_state "Shape" Hinv).
Defined.

(** ** C10: no null pointer in the result *)

(** C10.  Every pointer [plugins<T>()] returns is the address of the member
    [plugin_] of an object of the state, and so is not null. *)
Theorem plugins_never_null T s l s' p :
  plugins T s = Normal l s' → p ∈ l →
  p ≠ nullptr ∧ ∃ a, p = addressof (plugin_member a) ∧ valid s' a.
Proof.
  intros (addrs & _ & -> & Hv & Ho & _)%plugins_Normal
         (a & -> & Ha)%list_elem_of_fmap.
  split; [done |]. exists a. split; [done |].
  rewrite Forall_forall in Hv. unfold valid in *. rewrite Ho. by apply Hv.
Qed.

Lemma plugins_never_null_witness :
  plugins "Shape" shapes_state = Normal [plugin_ptr 0; plugin_ptr 2] shapes_state ∧
  plugin_ptr 2 ∈ [plugin_ptr 0; plugin_ptr 2] ∧
  plugin_ptr 2 ≠ nullptr ∧
  ∃ a, plugin_ptr 2 = addressof (plugin_member a) ∧ valid shapes_state a.
Proof.
  assert (plugins "Shape" shapes_state =
            Normal [plugin_ptr 0; plugin_ptr 2] shapes_state) as Hp
    by (vm_compute; reflexivity).
  assert (plugin_ptr 2 ∈ [plugin_ptr 0; plugin_ptr 2]) as Hin
    by (apply list_elem_of_In; simpl; auto).
  split_and!; [exact Hp | exact Hin | |];
    apply (plugins_never_null "Shape" shapes_state _ shapes_state _ Hp Hin).
Defined.

(** ** C4: repeated queries *)

(** C4.  Two calls of [plugins<T>()] that both return, with any number of
    calls of [plugins] in between and no registration, return the same
    pointers in the same order, and the objects (so the plug-in instances)
    are those of before the first call: none is constructed again. *)
Theorem plugins_identity_stable s s1 T l s' l1 s1' :
  queried s s1 →
  plugins T s = Normal l s' → plugins T s1 = Normal l1 s1' →
  l1 = l ∧ objects s1' = objects s.
Proof.
  intros [Ho Hr]%queried_frame
    (addrs & Hreg & -> & _)%plugins_Normal
    (addrs1 & Hreg1 & -> & _ & Ho1 & _)%plugins_Normal.
  unfold registry in *. rewrite Hr, Hreg in Hreg1.
  apply (inj (fmap registrar_ptr)) in Hreg1 as <-. split; congruence.
Qed.

Lemma plugins_identity_stable_witness :
  queried shapes_state shapes_state ∧
  plugins "Shape" shapes_state = Normal [plugin_ptr 0; plugin_ptr 2] shapes_state ∧
  [plugin_ptr 0; plugin_ptr 2] = [plugin_ptr 0; plugin_ptr 2] ∧
  objects shapes_state = objects shapes_state.
Proof.
  assert (plugins "Shape" shapes_state =
            Normal [plugin_ptr 0; plugin_ptr 2] shapes_state) as Hp
    by (vm_compute; reflexivity).
  assert (queried shapes_state shapes_state) as Hq.
  { apply (queried_step _ "Codec" shapes_state); [vm_compute; reflexivity |].
    apply (queried_step _ "Shape" shapes_state); [vm_compute; reflexivity |].
    apply queried_refl. }
  split_and!; [exact Hq | exact Hp |..];
    apply (plugins_identity_stable _ _ "Shape" _ _ _ _ Hq Hp Hp).
Defined.

(** ** C3: one reference per registered implementation *)

(** What the query returns after static initialization. *)
Lemma plugins_after_static_init prog h s T l s' :
  static_init prog (initial h) = Normal () s →
  plugins T s = Normal l s' →
  l = plugin_ptr <$> family_from T 0 (made <$> prog) ∧
  registry T s = registrar_ptr <$> family_from T 0 (made <$> prog) ∧
  objects s' = made <$> prog.
Proof.
  intros [Hinv Ho]%static_init_initial (addrs & Hreg & -> & _ & Ho' & _)%plugins_Normal.
  pose proof (proj1 Hinv T) as Hreg'. rewrite Hreg in Hreg'.
  apply (inj (fmap registrar_ptr)) in Hreg' as ->.
  rewrite Hreg. split_and!; congruence.
Qed.



(** ** C6: the order of the result *)



(** ** C7: the registries of two families are disjoint *)

(** C7.  A registration of a class that is not of the family [T] leaves the
    registry of [T] ([registrars_] of [T]) as it is; the new plug-in is no
    element of what [plugins<T>()] returns afterwards; and, the allocator
    answering alike, [plugins<T>()] returns after the registration what it
    returned before. *)
Theorem registries_disjoint s d a s' T :
  registry_inv s →
  initialize d s = Normal a s' →
  ¬ in_family T (decl_type d) →
  registrars_ s' !! T = registrars_ s !! T ∧
  (∀ l s'', plugins T s' = Normal l s'' → plugin_ptr a ∉ l) ∧
  (∀ h, value (plugins T (set_heap h s')) = value (plugins T (set_heap h s))).
Proof.
  intros Hinv Hi Hf. pose proof (initialize_inv _ _ _ _ Hi Hinv) as Hinv'.
  pose proof Hi as (-> & Ho & Hr & _)%initialize_Normal.
  assert (family_from T 0 (objects s') = family_from T 0 (objects s)) as Hfam.
  { rewrite Ho, family_from_app. simpl. rewrite decide_False by done.
    by rewrite app_nil_r. }
  split_and!.
  - rewrite Hr. apply lookup_insert_ne. by intros <-.
  - intros l s'' (addrs & Hreg & -> & _)%plugins_Normal.
    rewrite (proj1 Hinv' T), Hfam in Hreg.
    apply (inj (fmap registrar_ptr)) in Hreg as <-.
    intros Hin%(list_elem_of_fmap_inj_2 plugin_ptr).
    apply elem_of_family_from in Hin as (o & _ & Hl & _).
    rewrite Nat.sub_0_r in Hl. apply lookup_lt_Some in Hl. lia.
  - intros h.
    destruct (plugins_cases T _ (registry_inv_set_heap h _ Hinv))
      as [(s1 & E1 & _ & _ & _ & H1)|(s1 & E1 & _ & _ & H1)];
    destruct (plugins_cases T _ (registry_inv_set_heap h _ Hinv'))
      as [(s2 & E2 & _ & _ & _ & H2)|(s2 & E2 & _ & _ & H2)];
    rewrite E1, E2; simpl in *; rewrite Hfam in *; done.
Qed.

Lemma registries_disjoint_witness :
  registry_inv shapes_state ∧
  initialize (REGISTER_PLUGIN "ogg.cpp" "Ogg" Ogg) shapes_state = Normal 3 shapes_ogg_state ∧
  ¬ in_family "Shape" (decl_type (REGISTER_PLUGIN "ogg.cpp" "Ogg" Ogg)) ∧
  registrars_ shapes_ogg_state !! "Shape" = registrars_ shapes_state !! "Shape" ∧
  (∀ l s'', plugins "Shape" shapes_ogg_state = Normal l s'' → plugin_ptr 3 ∉ l) ∧
  (∀ h, value (plugins "Shape" (set_heap h shapes_ogg_state)) =
        value (plugins "Shape" (set_heap h shapes_state))).
Proof.
  assert (registry_inv shapes_state) as Hinv.
  { apply (static_init_initial (expand shapes_uses) []). vm_compute. reflexivity. }
  assert (initialize (REGISTER_PLUGIN "ogg.cpp" "Ogg" Ogg) shapes_state =
            Normal 3 shapes_ogg_state) as Hi by (vm_compute; reflexivity).
  assert (¬ in_family "Shape" (decl_type (REGISTER_PLUGIN "ogg.cpp" "Ogg" Ogg))) as Hf
    by (vm_compute; discriminate).
  split_and!; [exact Hinv | exact Hi | exact Hf |..];
    apply (registries_disjoint shapes_state (REGISTER_PLUGIN "ogg.cpp" "Ogg" Ogg) 3
             shapes_ogg_state "Shape" Hinv Hi Hf).
Defined.

(** ** C8: entries per concrete type *)


(** The same within one scope, through a second name of the class:
    [REGISTER_PLUGIN(Circle); REGISTER_PLUGIN(Round);] where [Round] is an
    alias of [Circle] declares two objects of different names and of one
    type, and the registry of [Shape] holds two entries for [Circle]. *)
Lemma same_type_under_two_names :
  no_redefinition (expand alias_uses) = true ∧
  static_init (expand alias_uses) (initial []) = Normal () twice_state ∧
  registry "Shape" twice_state = [registrar_ptr 0; registrar_ptr 1] ∧
  objects twice_state !! 0 = Some (MkRegistrar Circle alive) ∧
  objects twice_state !! 1 = Some (MkRegistrar Circle alive).
Proof. split_and!; vm_compute; reflexivity. Qed.




(** * Further properties of the code *)

(** ** Helper lemmas *)



Lemma Forall2_fmap_eq {A B C} (R : A → B → Prop) (f : A → C) (g : B → C) l k :
  Forall2 R l k → (∀ x y, R x y → f x = g y) → f <$> l = g <$> k.
Proof.
  intros HF Hfg. induction HF as [|x y l k HR _ IH]; [done |].
  rewrite !fmap_cons. f_equal; [by apply Hfg | done].
Qed.

Lemma static_init_nonempty prog s s' :
  static_init prog s = Normal () s' →
  (∀ B v, registrars_ s !! B = Some v → v ≠ []) →
  ∀ B v, registrars_ s' !! B = Some v → v ≠ [].
Proof.
  revert s. induction prog as [|d prog IH]; intros s; simpl.
  - by intros [= <-].
  - intros (a & s1 & Hi & Hs)%bind_Normal Hne. apply (IH _ Hs).
    apply initialize_Normal in Hi as (_ & _ & Hr & _). intros B v. rewrite Hr.
    destruct (decide (Base (decl_type d) = B)) as [<-|].
    + rewrite lookup_insert_eq. intros [= <-]. by destruct (registry _ s).
    + rewrite lookup_insert_ne by done. apply Hne.
Qed.

Lemma family_from_nil_inv B a os :
  family_from B a os = [] → Forall (λ o, ¬ in_family B (PLUGIN o)) os.
Proof.
  intros Hnil. apply Forall_forall. intros o Ho Hf.
  apply list_elem_of_lookup in Ho as (i & Hi).
  assert (a + i ∈ family_from B a os) as Hin.
  { apply elem_of_family_from. exists o. split_and!; [lia | | done].
    by replace (a + i - a) with i by lia. }
  rewrite Hnil in Hin. by apply elem_of_nil in Hin.
Qed.

(** ** X1: the outcomes of the base-class constructor *)

(** X1.  Whatever the state, the pointer [this] and the answers of the
    allocator, the constructor of [RegistrarBase<BASE>] has two outcomes
    only.  Either it returns: then [this] has been appended as the last
    entry of the registry of [BASE], and the objects and the registries of
    the other base classes are as before.  Or the process is ended by
    [std::terminate], and then one of the two coming allocation requests
    fails.  The constructor never leaves by an exception ([noexcept]), its
    behaviour is never undefined, and it never returns without [this]
    registered. *)
Theorem RegistrarBase_ctor_registers_or_terminates BASE this s :
  (RegistrarBase_ctor BASE this s = Terminate ∧ false ∈ take 2 (heap s)) ∨
  (∃ s', RegistrarBase_ctor BASE this s = Normal () s' ∧
         objects s' = objects s ∧
         registry BASE s' = registry BASE s ++ [this] ∧
         ∀ B, B ≠ BASE → registrars_ s' !! B = registrars_ s !! B).
Proof.
  assert (∀ s' : state,
            registrars_ s' = <[BASE := registry BASE s ++ [this]]> (registrars_ s) →
            registry BASE s' = registry BASE s ++ [this] ∧
            ∀ B, B ≠ BASE → registrars_ s' !! B = registrars_ s !! B) as Hupd.
  { intros s' Hr. unfold registry at 1. rewrite Hr, lookup_insert_eq.
    split; [done |]. intros B HB. by apply lookup_insert_ne. }
  revert Hupd. destruct s as [os rs h].
  unfold registry, RegistrarBase_ctor, noexcept,
    ctor_function_try_block, registrars_push_back, registrars_reset, new_vector,
    push_back, operator_new, set_registrars_, set_heap.
  unfold_M. simpl. intros Hupd. destruct (rs !! BASE) as [v|] eqn:E; simpl in *.
  - rewrite E. destruct h as [|[] h]; simpl; rewrite ?E; simpl.
    + right. eexists. split; [done |]. split; [done |]. by apply Hupd.
    + right. eexists. split; [done |]. split; [done |]. by apply Hupd.
    + left. split; [done | left].
  - destruct h as [|[] [|[] h]]; simpl; rewrite ?lookup_insert_eq; simpl;
      rewrite ?insert_insert_eq.
    + right. eexists. split; [done |]. split; [done |]. by apply Hupd.
    + right. eexists. split; [done |]. split; [done |]. by apply Hupd.
    + right. eexists. split; [done |]. split; [done |]. by apply Hupd.
    + left. split; [done | right; left].
    + left. split; [done | left].
    + left. split; [done | left].
    + left. split; [done | left].
Qed.

(** ** X2: the registry storage is created by the first registration *)

(** X2.  After static initialization the pointer [registrars_] of a base
    class is null exactly when the program has no declaration for a class
    of that family, and a vector it owns is never empty: the storage is
    created by the first registration of the family and by nothing else. *)
Theorem registry_created_iff_registered prog h s B :
  static_init prog (initial h) = Normal () s →
  (registrars_ s !! B = None ↔
     Forall (λ d, ¬ in_family B (decl_type d)) prog) ∧
  (∀ v, registrars_ s !! B = Some v → v ≠ []).
Proof.
  intros Hs. pose proof Hs as [Hinv Ho]%static_init_initial.
  assert (∀ v, registrars_ s !! B = Some v → v ≠ []) as Hne.
  { intros v. by apply (static_init_nonempty _ _ _ Hs). }
  split; [|done]. pose proof (proj1 Hinv B) as Hreg. rewrite Ho in Hreg.
  unfold registry in Hreg. split.
  - intros Hnone. rewrite Hnone in Hreg. simpl in Hreg. symmetry in Hreg.
    apply fmap_nil_inv, family_from_nil_inv in Hreg.
    rewrite Forall_fmap in Hreg. exact Hreg.
  - intros Hnot. rewrite family_from_None in Hreg by (rewrite Forall_fmap; exact Hnot).
    destruct (registrars_ s !! B) as [v|] eqn:E; [|done].
    simpl in Hreg. subst v. by destruct (Hne [] eq_refl).
Qed.

Lemma registry_created_iff_registered_witness :
  static_init (expand shapes_uses) (initial []) = Normal () shapes_state ∧
  (registrars_ shapes_state !! "Codec" = None ↔
     Forall (λ d, ¬ in_family "Codec" (decl_type d)) (expand shapes_uses)) ∧
  (∀ v, registrars_ shapes_state !! "Codec" = Some v → v ≠ []).
Proof.
  assert (static_init (expand shapes_uses) (initial []) = Normal () shapes_state)
    as Hs by (vm_compute; reflexivity).
  split; [exact Hs |].
  exact (registry_created_iff_registered _ _ _ "Codec" Hs).
Defined.

(** ** X3: registrations extend the result of the query at its end *)



(** ** X4: the entry is registered before the plug-in is constructed *)



(** ** X6: the classes enumerated do not depend on the initialization order *)

Lemma plugins_classes prog h s T l s' :
  static_init prog (initial h) = Normal () s →
  plugins T s = Normal l s' →
  pointee_class s <$> l =
  (λ d, Some (decl_type d)) <$> filter (λ d, in_family T (decl_type d)) prog.
Proof.
  intros Hs (-> & _ & _)%(plugins_after_static_init _ _ _ _ _ _ Hs).
  apply static_init_initial in Hs as [_ Ho].
  pose proof (family_from_Forall2 T [] (made <$> prog)) as HF.
  rewrite filter_made in HF. apply Forall2_fmap_r in HF. simpl in HF.
  rewrite <- list_fmap_compose.
  eapply Forall2_fmap_eq; [exact HF |]. intros a d Ha. simpl.
  by rewrite Ho, Ha.
Qed.

(** X6.  The order in which the platform initializes the registrar objects
    changes the order of the result of [plugins<T>()] and nothing else: for
    two initialization orders of one program, the classes of the plug-ins
    the two queries return are the same up to their order. *)
Theorem plugins_classes_independent_of_order prog prog' h h' s s' T l s1 l' s1' :
  prog ≡ₚ prog' →
  static_init prog (initial h) = Normal () s →
  static_init prog' (initial h') = Normal () s' →
  plugins T s = Normal l s1 → plugins T s' = Normal l' s1' →
  pointee_class s <$> l ≡ₚ pointee_class s' <$> l'.
Proof.
  intros Hp Hs Hs' Hl Hl'.
  rewrite (plugins_classes _ _ _ _ _ _ Hs Hl), (plugins_classes _ _ _ _ _ _ Hs' Hl').
  by rewrite Hp.
Qed.

Lemma plugins_classes_independent_of_order_witness :
  expand shapes_uses ≡ₚ expand shapes_rev_uses ∧
  static_init (expand shapes_uses) (initial []) = Normal () shapes_state ∧
  static_init (expand shapes_rev_uses) (initial []) = Normal () shapes_rev_state ∧
  plugins "Shape" shapes_state = Normal [plugin_ptr 0; plugin_ptr 2] shapes_state ∧
  plugins "Shape" shapes_rev_state = Normal [plugin_ptr 0; plugin_ptr 2] shapes_rev_state ∧
  pointee_class shapes_state <$> [plugin_ptr 0; plugin_ptr 2] ≡ₚ
  pointee_class shapes_rev_state <$> [plugin_ptr 0; plugin_ptr 2].
Proof.
  assert (expand shapes_uses ≡ₚ expand shapes_rev_uses) as Hp.
  { symmetry. apply (reverse_Permutation (expand shapes_uses)). }
  assert (static_init (expand shapes_uses) (initial []) = Normal () shapes_state)
    as Hs by (vm_compute; reflexivity).
  assert (static_init (expand shapes_rev_uses) (initial []) = Normal () shapes_rev_state)
    as Hs' by (vm_compute; reflexivity).
  assert (plugins "Shape" shapes_state =
            Normal [plugin_ptr 0; plugin_ptr 2] shapes_state) as Hl
    by (vm_compute; reflexivity).
  assert (plugins "Shape" shapes_rev_state =
            Normal [plugin_ptr 0; plugin_ptr 2] shapes_rev_state) as Hl'
    by (vm_compute; reflexivity).
  split_and!; [exact Hp | exact Hs | exact Hs' | exact Hl | exact Hl' |].
  exact (plugins_classes_independent_of_order _ _ _ _ _ _ "Shape" _ _ _ _
           Hp Hs Hs' Hl Hl').
Defined.

(** ** X7: every declared object is in exactly one registry *)

(** X7.  After static initialization the registry of [T] has no entry
    twice, and it holds the pointer to the object at address [a] exactly
    when the [a]-th declaration of the program is for a class whose [Base]
    is [T]; a query of [T] that returns holds the address of that object's
    plug-in under the same condition.  So every declared object is
    registered, without any call in the application, in the registry of
    its own family and in no other. *)
Theorem every_object_in_exactly_its_registry prog h s T a :
  static_init prog (initial h) = Normal () s →
  NoDup (registry T s) ∧
  (registrar_ptr a ∈ registry T s ↔
     ∃ d, prog !! a = Some d ∧ Base (decl_type d) = T) ∧
  (∀ l s', plugins T s = Normal l s' →
     (plugin_ptr a ∈ l ↔ ∃ d, prog !! a = Some d ∧ Base (decl_type d) = T)).
Proof.
  intros Hs. pose proof Hs as [Hinv Ho]%static_init_initial.
  assert (a ∈ family_from T 0 (made <$> prog) ↔
          ∃ d, prog !! a = Some d ∧ Base (decl_type d) = T) as Hiff.
  { rewrite elem_of_family_from, Nat.sub_0_r. split.
    - intros (o & _ & Hl & Hf). apply list_lookup_fmap_Some in Hl as (d & -> & Hd).
      by exists d.
    - intros (d & Hd & Hf). exists (made d). split_and!; [lia | | done].
      by rewrite list_lookup_fmap, Hd. }
  rewrite (proj1 Hinv T), Ho. split_and!.
  - apply NoDup_fmap_2; [apply _ | apply NoDup_family_from].
  - by rewrite (list_elem_of_fmap_inj registrar_ptr).
  - intros l s' (-> & _ & _)%(plugins_after_static_init _ _ _ _ _ _ Hs).
    by rewrite (list_elem_of_fmap_inj plugin_ptr).
Qed.

Lemma every_object_in_exactly_its_registry_witness :
  static_init (expand shapes_uses) (initial []) = Normal () shapes_state ∧
  NoDup (registry "Shape" shapes_state) ∧
  (registrar_ptr 2 ∈ registry "Shape" shapes_state ↔
     ∃ d, expand shapes_uses !! 2 = Some d ∧ Base (decl_type d) = "Shape") ∧
  (∀ l s', plugins "Shape" shapes_state = Normal l s' →
     (plugin_ptr 2 ∈ l ↔
        ∃ d, expand shapes_uses !! 2 = Some d ∧ Base (decl_type d) = "Shape")).
Proof.
  assert (static_init (expand shapes_uses) (initial []) = Normal () shapes_state)
    as Hs by (vm_compute; reflexivity).
  split; [exact Hs |].
  exact (every_object_in_exactly_its_registry _ _ _ "Shape" 2 Hs).
Defined.

End linktimeplugin.
